(** * AliasMap (src/libs/class.AliasMap.js) — a shallow embedding

    The class keeps two coupled structures: [_map], a JavaScript [Map] from
    every registered name (primary or alias) to a value, and [_nameSet], a
    JavaScript [Set] of primary names.  The [Map] is only ever read by key,
    so it is a [gmap string value]; the [Set] is iterated, so it is the list
    of its elements in insertion order.

    Methods are computations in a state-and-exception monad: a JavaScript
    [throw] keeps whatever the method had already written to [this]. *)

From stdpp Require Import gmap strings list fin_maps sorting.

(** ** JavaScript values *)

Module JS.

#[warnings="-register-all"]
Inductive value : Type :=
  | VUndefined
  | VNull
  | VBool (b : bool)
  | VNum (z : Z)
  | VStr (s : string)
  | VArr (elems : list value)
  | VObj (props : list (string * value))
  | VFun (fname : string).

(** The [typeof] operator. *)
Definition typeof (v : value) : string :=
  match v with
  | VUndefined => "undefined"
  | VNull => "object"
  | VBool _ => "boolean"
  | VNum _ => "number"
  | VStr _ => "string"
  | VArr _ => "object"
  | VObj _ => "object"
  | VFun _ => "function"
  end.

Inductive error : Type :=
  | InvalidArgument   (* thrown by a precondition check *)
  | TypeError.        (* property read on [undefined] or [null] *)

Inductive outcome (A : Type) : Type :=
  | Returned (a : A)
  | Thrown (e : error).
Arguments Returned {A} a.
Arguments Thrown {A} e.

(** First binding of [p] in an object's property list. *)
Fixpoint own_prop (props : list (string * value)) (p : string) : value :=
  match props with
  | [] => VUndefined
  | (q, v) :: rest => if decide (q = p) then v else own_prop rest p
  end.

(** The member expression [v.p].  Only data properties are modelled: an
    object answers from its property list, a function answers its [name],
    any other primitive answers [undefined]; reading from [undefined] or
    [null] throws. *)
Definition getProp (v : value) (p : string) : outcome value :=
  match v with
  | VUndefined | VNull => Thrown TypeError
  | VObj props => Returned (own_prop props p)
  | VFun fname => Returned (if decide (p = "name") then VStr fname else VUndefined)
  | _ => Returned VUndefined
  end.

(** *** The built-in [Map], keyed by strings *)

Definition Map_has (m : gmap string value) (k : string) : bool :=
  bool_decide (is_Some (m !! k)).

Definition Map_get (m : gmap string value) (k : string) : value :=
  default VUndefined (m !! k).

Definition Map_set (k : string) (v : value) (m : gmap string value) : gmap string value :=
  <[k := v]> m.

(** [Map.prototype.delete] answers whether the key was present. *)
Definition Map_delete (k : string) (m : gmap string value) : bool * gmap string value :=
  (Map_has m k, delete k m).

(** *** The built-in [Set] of strings, as its elements in insertion order *)

Definition Set_add (x : string) (s : list string) : list string :=
  if decide (x ∈ s) then s else s ++ [x].

Definition Set_delete (x : string) (s : list string) : list string :=
  filter (λ y, y ≠ x) s.

Definition Set_size (s : list string) : nat := length s.

(** A [Set] iterator walks the live set by position and, once it has
    reported [done], stays done. *)
Record SetIterator : Type := { cursor : nat; finished : bool }.

Definition Set_iterator : SetIterator := {| cursor := 0; finished := false |}.

Definition SetIterator_next (s : list string) (it : SetIterator)
  : option string * SetIterator :=
  if finished it then (None, it)
  else match s !! cursor it with
       | Some x => (Some x, {| cursor := S (cursor it); finished := false |})
       | None => (None, {| cursor := cursor it; finished := true |})
       end.

End JS.

Import JS.

(** ** The container and its monad *)

Record AliasMap : Type := mkAliasMap {
  _map : gmap string value;
  _nameSet : list string
}.

(** [constructor()] *)
Definition new_AliasMap : AliasMap := {| _map := ∅; _nameSet := [] |}.

Definition M (A : Type) : Type := AliasMap → outcome A * AliasMap.

#[global] Instance M_ret : MRet M := λ A a this, (Returned a, this).

#[global] Instance M_bind : MBind M := λ A B f c this,
  match c this with
  | (Returned a, this') => f a this'
  | (Thrown e, this') => (Thrown e, this')
  end.

Definition throw {A} (e : error) : M A := λ this, (Thrown e, this).

Definition lift {A} (o : outcome A) : M A := λ this, (o, this).

Definition read {A} (f : AliasMap → A) : M A := λ this, (Returned (f this), this).

Definition write (f : AliasMap → AliasMap) : M unit := λ this, (Returned tt, f this).

(** [arr.forEach(f)] for an effectful callback. *)
Fixpoint Array_forEach {A} (arr : list A) (f : A → M unit) : M unit :=
  match arr with
  | [] => mret tt
  | x :: rest => f x ;; Array_forEach rest f
  end.

(** ** Precondition checks *)

Module precon.

(** Modelled from the spec: the package [@makipool/mint-precon] is not part
    of the sources.  Section 6 of the specification gives the contract: a
    [nameOrAlias] must be of string type, a [key] must be a defined object
    with a string [name] and an array-of-strings [aliasArr], an
    [iteratorFn] must be invocable, and a violation raises an
    invalid-argument error.  A check that passes hands back the checked
    datum. *)

Definition defined (v : value) : M unit :=
  match v with
  | VUndefined | VNull => throw InvalidArgument
  | _ => mret tt
  end.

Definition string (v : value) : M String.string :=
  match v with
  | VStr s => mret s
  | _ => throw InvalidArgument
  end.

Fixpoint strings_of (vs : list value) : option (list String.string) :=
  match vs with
  | [] => Some []
  | VStr s :: rest => cons s <$> strings_of rest
  | _ :: _ => None
  end.

Definition arrayOf_string (v : value) : M (list String.string) :=
  match v with
  | VArr elems =>
      match strings_of elems with
      | Some ss => mret ss
      | None => throw InvalidArgument
      end
  | _ => throw InvalidArgument
  end.

Definition funct (v : value) : M unit :=
  if decide (typeof v = "function") then mret tt else throw InvalidArgument.

End precon.

(** ** Methods of [AliasMap] *)

(** [get size()] *)
Definition size (this : AliasMap) : nat := Set_size (_nameSet this).

Definition has (nameOrAlias : value) : M bool :=
  s ← precon.string nameOrAlias;
  read (λ this, Map_has (_map this) s).

Definition get (nameOrAlias : value) : M value :=
  s ← precon.string nameOrAlias;
  read (λ this, Map_get (_map this) s).

(** [set(key, value)]; the answer [tt] stands for the returned [this]. *)
Definition set (key value : value) : M unit :=
  precon.defined key ;;
  key_name ← lift (getProp key "name") ;
  name ← precon.string key_name ;
  key_aliasArr ← lift (getProp key "aliasArr") ;
  aliasArr ← precon.arrayOf_string key_aliasArr ;
  let value := if decide (typeof value = "undefined") then key else value in
  write (λ this, {| _map := Map_set name value (_map this); _nameSet := _nameSet this |}) ;;
  write (λ this, {| _map := _map this; _nameSet := Set_add name (_nameSet this) |}) ;;
  Array_forEach aliasArr (λ aliasName,
    write (λ this, {| _map := Map_set aliasName value (_map this);
                      _nameSet := _nameSet this |})) ;;
  mret tt.

(** A call site passes an argument list; a parameter with no argument is
    [undefined]. *)
Definition arg (i : nat) (args : list value) : value := default VUndefined (args !! i).

Definition call_set (args : list value) : M unit := set (arg 0 args) (arg 1 args).

Definition delete (key : value) : M bool :=
  precon.defined key ;;
  key_name ← lift (getProp key "name") ;
  name ← precon.string key_name ;
  key_aliasArr ← lift (getProp key "aliasArr") ;
  aliasArr ← precon.arrayOf_string key_aliasArr ;
  isDeleted ← (λ this, let '(b, m') := Map_delete name (_map this) in
                       (Returned b, {| _map := m'; _nameSet := _nameSet this |})) ;
  write (λ this, {| _map := _map this; _nameSet := Set_delete name (_nameSet this) |}) ;;
  Array_forEach aliasArr (λ aliasName,
    write (λ this, {| _map := (Map_delete aliasName (_map this)).2;
                      _nameSet := _nameSet this |})) ;;
  mret isDeleted.

Definition clear : M unit :=
  write (λ this, {| _map := ∅; _nameSet := _nameSet this |}) ;;
  write (λ this, {| _map := _map this; _nameSet := [] |}).

(** The body of the [for (const name of _._nameSet)] loop of [forEach], for
    a callback that leaves the container alone: the arguments
    [(value, index)] of the successive calls, the third argument being the
    container each time. *)
Fixpoint forEach_loop (this : AliasMap) (names : list string) (i : nat)
  : list (value * nat) :=
  match names with
  | [] => []
  | name :: rest => (Map_get (_map this) name, i) :: forEach_loop this rest (S i)
  end.

Definition forEach (iteratorFn : value) : M (list (value * nat)) :=
  precon.funct iteratorFn ;;
  read (λ this, forEach_loop this (_nameSet this) 0).

(** [keys()] hands out the name set's own iterator. *)
Definition keys : SetIterator := Set_iterator.

Definition keys_next (this : AliasMap) (it : SetIterator) : option string * SetIterator :=
  SetIterator_next (_nameSet this) it.

(** [values()]: [next()] of the returned iterator, [None] for [done]. *)
Definition values : SetIterator := Set_iterator.

Definition values_next (this : AliasMap) (nameIterator : SetIterator)
  : option value * SetIterator :=
  let '(n, nameIterator') := SetIterator_next (_nameSet this) nameIterator in
  match n with
  | None => (None, nameIterator')
  | Some name => (Some (Map_get (_map this) name), nameIterator')
  end.

(** [[Symbol.iterator]()] *)
Definition iterator : SetIterator := Set_iterator.

Definition iterator_next (this : AliasMap) (nameIterator : SetIterator)
  : option (string * value) * SetIterator :=
  let '(n, nameIterator') := SetIterator_next (_nameSet this) nameIterator in
  match n with
  | None => (None, nameIterator')
  | Some name => (Some (name, Map_get (_map this) name), nameIterator')
  end.

(** Pulling an iterator until it reports [done], as a spread or a [for-of]
    does over an unchanging container; [None] when the fuel runs out
    first. *)
Fixpoint drain {A} (next : SetIterator → option A * SetIterator)
    (fuel : nat) (it : SetIterator) : option (list A) :=
  match fuel with
  | 0 => None
  | S fuel' =>
      match next it with
      | (None, _) => Some []
      | (Some x, it') => cons x <$> drain next fuel' it'
      end
  end.

(** The iterator as [k] calls of [next()] leave it. *)
Fixpoint pull_n {A} (next : SetIterator → option A * SetIterator)
    (k : nat) (it : SetIterator) : SetIterator :=
  match k with
  | 0 => it
  | S k' => pull_n next k' (next it).2
  end.

(** ** Key objects and stored values *)

(** What the three checks at the head of [set] and [delete] let through: a
    key whose [name] is a string and whose [aliasArr] is an array of
    strings. *)
Definition key_shape (key : value) : option (string * list string) :=
  match getProp key "name", getProp key "aliasArr" with
  | Returned (VStr name), Returned (VArr elems) => pair name <$> precon.strings_of elems
  | _, _ => None
  end.

Definition valid_key (key : value) (name : string) (aliasArr : list string) : Prop :=
  key_shape key = Some (name, aliasArr).

(** The value [set] files under the names of [key]. *)
Definition stored_value (key value : value) : JS.value :=
  if decide (typeof value = "undefined") then key else value.

(** A key object literal [{name: n, aliasArr: [...]}]. *)
Definition mk_key (name : string) (aliasArr : list string) : value :=
  VObj [("name", VStr name); ("aliasArr", VArr (VStr <$> aliasArr))].

(** The two keys of the specification's scenario. *)
Definition red : value := mk_key "red" ["r"; "crimson"].
Definition blue : value := mk_key "blue" [].

(** The container after a [set] or a [delete] that passed its checks. *)
Definition set_state (name : string) (aliasArr : list string) (v : value)
    (this : AliasMap) : AliasMap :=
  {| _map := foldl (λ m a, Map_set a v m) (Map_set name v (_map this)) aliasArr;
     _nameSet := Set_add name (_nameSet this) |}.

Definition delete_state (name : string) (aliasArr : list string)
    (this : AliasMap) : AliasMap :=
  {| _map := foldl (λ m a, base.delete a m) (base.delete name (_map this)) aliasArr;
     _nameSet := Set_delete name (_nameSet this) |}.

(** ** Histories of operations *)

Inductive op : Type :=
  | OpSet (key value : value)
  | OpDelete (key : value)
  | OpClear.

(** One call; a call that throws is caught by the caller and the history
    goes on from the container as the call left it. *)
Definition exec (this : AliasMap) (o : op) : AliasMap :=
  match o with
  | OpSet key value => (set key value this).2
  | OpDelete key => (delete key this).2
  | OpClear => (clear this).2
  end.

Definition run (ops : list op) : AliasMap := foldl exec new_AliasMap ops.

(** ** What a history says, name by name

    The specification speaks of the insertion order of primary names and
    of the value stored for an entry.  Both are read off the history of
    calls one name at a time, without reference to the container. *)

(** The position in the history of the call that inserted [n], for as long
    as [n] has stayed inserted since: a [set] under [n] inserts it unless it
    is inserted already, a [delete] under [n] and a [clear] remove it, a
    call that throws counts for nothing.  The first component counts the
    calls. *)
Definition inserted_step (n : string) (acc : nat * option nat) (o : op)
  : nat * option nat :=
  (S acc.1,
   match o with
   | OpSet key _ =>
       match key_shape key with
       | Some (n', _) => if decide (n' = n) then Some (default acc.1 acc.2) else acc.2
       | None => acc.2
       end
   | OpDelete key =>
       match key_shape key with
       | Some (n', _) => if decide (n' = n) then None else acc.2
       | None => acc.2
       end
   | OpClear => None
   end).

Definition inserted_at (ops : list op) (n : string) : option nat :=
  (foldl (inserted_step n) (0, None) ops).2.

(** [names] lists exactly the strings to which [f] gives a time, earliest
    first. *)
Definition ordered_by (f : string → option nat) (names : list string) : Prop :=
  (∀ n, n ∈ names ↔ is_Some (f n)) ∧
  StronglySorted (λ a b, ∃ ta tb, f a = Some ta ∧ f b = Some tb ∧ ta < tb) names.

(** [names] lists the inserted primary names, earliest insertion first. *)
Definition insertion_order (ops : list op) (names : list string) : Prop :=
  ordered_by (inserted_at ops) names.

(** The value of the entry with primary name [n]: the value filed by the
    latest [set] under [n], unless a [delete] under [n] or a [clear] came
    after it. *)
Definition entry_step (n : string) (cur : option value) (o : op) : option value :=
  match o with
  | OpSet key v =>
      match key_shape key with
      | Some (n', _) => if decide (n' = n) then Some (stored_value key v) else cur
      | None => cur
      end
  | OpDelete key =>
      match key_shape key with
      | Some (n', _) => if decide (n' = n) then None else cur
      | None => cur
      end
  | OpClear => None
  end.

Definition entry_value (ops : list op) (n : string) : option value :=
  foldl (entry_step n) None ops.

(** The discipline the class asks of its callers, as far as primary names
    go: a call lists among its aliases no string that is, at the time of
    the call, a stored primary name other than the call's own [key.name]. *)
Definition alias_apart (this : AliasMap) (o : op) : Prop :=
  match o with
  | OpSet key _ | OpDelete key =>
      match key_shape key with
      | Some (n, al) => Forall (λ a, a ∈ _nameSet this → a = n) al
      | None => True
      end
  | OpClear => True
  end.

Fixpoint aliases_apart (this : AliasMap) (ops : list op) : Prop :=
  match ops with
  | [] => True
  | o :: rest => alias_apart this o ∧ aliases_apart (exec this o) rest
  end.

#[global] Instance alias_apart_dec (this : AliasMap) (o : op) :
  Decision (alias_apart this o).
Proof.
  destruct o as [key v|key|]; simpl;
    try destruct (key_shape key) as [[n al]|]; apply _.
Defined.

#[global] Instance aliases_apart_dec (this : AliasMap) (ops : list op) :
  Decision (aliases_apart this ops).
Proof. revert this. induction ops as [|o ops IH]; intros this; simpl; apply _. Defined.

(** ** Basic facts *)

(** Unfolds the monad's plumbing and the checks, leaving loops folded. *)
Ltac run_monad :=
  cbv beta iota delta [mbind M_bind mret M_ret lift read throw
                       precon.defined precon.string precon.arrayOf_string
                       precon.funct].

Section basics.

Implicit Types (this : AliasMap) (key value v : value) (n s : string)
  (al : list string).

Lemma typeof_undefined v : typeof v = "undefined" ↔ v = VUndefined.
Proof. split; [by destruct v | by intros ->]. Qed.

Lemma stored_value_undefined key : stored_value key VUndefined = key.
Proof. reflexivity. Qed.

Lemma stored_value_defined key v : v ≠ VUndefined → stored_value key v = v.
Proof.
  intros Hv. unfold stored_value. case_decide as Ht; [|done].
  by apply typeof_undefined in Ht.
Qed.

Lemma strings_of_fmap al : precon.strings_of (VStr <$> al) = Some al.
Proof. induction al as [|a al IH]; csimpl; [done|]. by rewrite IH. Qed.

Lemma strings_of_Some vs al : precon.strings_of vs = Some al → vs = VStr <$> al.
Proof.
  revert al. induction vs as [|v vs IH]; intros al; simpl.
  - by intros [= <-].
  - destruct v; try done. destruct (precon.strings_of vs) as [ss|]; [|done].
    intros [= <-]. csimpl. by rewrite (IH ss).
Qed.

Lemma valid_key_mk_key n al : valid_key (mk_key n al) n al.
Proof. unfold valid_key, key_shape. csimpl. by rewrite strings_of_fmap. Qed.

Lemma Array_forEach_write {A} (arr : list A) (f : A → AliasMap → AliasMap) this :
  Array_forEach arr (λ x, write (f x)) this
  = (Returned tt, foldl (λ t x, f x t) this arr).
Proof.
  revert this. induction arr as [|x arr IH]; intros this; [done|].
  simpl. unfold mbind, M_bind, write at 1. apply IH.
Qed.

Lemma foldl_map_nameSet {A} (g : A → gmap string JS.value → gmap string JS.value)
    (arr : list A) this :
  foldl (λ t x, {| _map := g x (_map t); _nameSet := _nameSet t |}) this arr
  = {| _map := foldl (λ m x, g x m) (_map this) arr; _nameSet := _nameSet this |}.
Proof.
  revert this. induction arr as [|x arr IH]; intros [m ns]; [done|].
  simpl. by rewrite IH.
Qed.

(** A [set] that passes its checks. *)
Lemma set_valid this key value n al :
  valid_key key n al →
  set key value this = (Returned tt, set_state n al (stored_value key value) this).
Proof.
  unfold valid_key, key_shape. intros Hk.
  destruct (getProp key "name") as [[]|] eqn:Hn; try done.
  destruct (getProp key "aliasArr") as [[]|] eqn:Ha; try done.
  destruct (precon.strings_of elems) as [ss|] eqn:Hs; [|done].
  simpl in Hk. injection Hk as <- <-.
  unfold set. assert (precon.defined key = mret tt) as -> by by destruct key.
  run_monad. rewrite Hn. run_monad. rewrite Ha. run_monad. rewrite Hs. run_monad.
  unfold write at 1 2. cbv beta iota. fold (stored_value key value).
  rewrite (Array_forEach_write ss
    (λ a t, {| _map := Map_set a (stored_value key value) (_map t);
               _nameSet := _nameSet t |})).
  by rewrite (foldl_map_nameSet (λ a, Map_set a (stored_value key value))).
Qed.

(** A [delete] that passes its checks. *)
Lemma delete_valid this key n al :
  valid_key key n al →
  delete key this = (Returned (Map_has (_map this) n), delete_state n al this).
Proof.
  unfold valid_key, key_shape. intros Hk.
  destruct (getProp key "name") as [[]|] eqn:Hn; try done.
  destruct (getProp key "aliasArr") as [[]|] eqn:Ha; try done.
  destruct (precon.strings_of elems) as [ss|] eqn:Hs; [|done].
  simpl in Hk. injection Hk as <- <-.
  unfold delete. assert (precon.defined key = mret tt) as -> by by destruct key.
  run_monad. rewrite Hn. run_monad. rewrite Ha. run_monad. rewrite Hs. run_monad.
  unfold write at 1. cbv beta iota. unfold Map_delete at 1. cbv beta iota.
  rewrite (Array_forEach_write ss
    (λ a t, {| _map := (Map_delete a (_map t)).2; _nameSet := _nameSet t |})).
  by rewrite (foldl_map_nameSet (λ a m, (Map_delete a m).2)).
Qed.

(** A [set] or [delete] that fails a check throws with [this] untouched. *)
Lemma set_malformed this key value :
  key_shape key = None → set key value this = (Thrown InvalidArgument, this).
Proof.
  unfold key_shape, set. intros Hk.
  destruct key; try done. cbn [getProp] in *. run_monad.
  destruct (own_prop props "name"); try done.
  destruct (own_prop props "aliasArr"); try done.
  by destruct (precon.strings_of elems).
Qed.

Lemma delete_malformed this key :
  key_shape key = None → delete key this = (Thrown InvalidArgument, this).
Proof.
  unfold key_shape, delete. intros Hk.
  destruct key; try done. cbn [getProp] in *. run_monad.
  destruct (own_prop props "name"); try done.
  destruct (own_prop props "aliasArr"); try done.
  by destruct (precon.strings_of elems).
Qed.

Lemma lookup_foldl_set (m : gmap string JS.value) al v s :
  foldl (λ m a, Map_set a v m) m al !! s = if decide (s ∈ al) then Some v else m !! s.
Proof.
  revert m. induction al as [|a al IH]; intros m; simpl; [done|].
  rewrite IH. unfold Map_set. destruct (decide (s ∈ al)) as [Hin|Hin].
  - rewrite decide_True; [done|]. apply elem_of_cons. by right.
  - destruct (decide (s = a)) as [->|Hne].
    + rewrite decide_True by (apply elem_of_cons; by left). by rewrite lookup_insert_eq.
    + rewrite decide_False by (by intros [?|?]%elem_of_cons).
      by rewrite lookup_insert_ne.
Qed.

Lemma lookup_foldl_delete (m : gmap string JS.value) al s :
  foldl (λ m a, base.delete a m) m al !! s = if decide (s ∈ al) then None else m !! s.
Proof.
  revert m. induction al as [|a al IH]; intros m; simpl; [done|].
  rewrite IH. destruct (decide (s ∈ al)) as [Hin|Hin].
  - rewrite decide_True; [done|]. apply elem_of_cons. by right.
  - destruct (decide (s = a)) as [->|Hne].
    + rewrite decide_True by (apply elem_of_cons; by left). by rewrite lookup_delete_eq.
    + rewrite decide_False by (by intros [?|?]%elem_of_cons).
      by rewrite lookup_delete_ne.
Qed.

Lemma lookup_set_state this n al v s :
  s = n ∨ s ∈ al → _map (set_state n al v this) !! s = Some v.
Proof.
  intros Hs. simpl. rewrite lookup_foldl_set. case_decide as Hin; [done|].
  destruct Hs as [->|Hs]; [|done]. unfold Map_set. by rewrite lookup_insert_eq.
Qed.

Lemma lookup_delete_state this n al s :
  s = n ∨ s ∈ al → _map (delete_state n al this) !! s = None.
Proof.
  intros Hs. simpl. rewrite lookup_foldl_delete. case_decide as Hin; [done|].
  destruct Hs as [->|Hs]; [|done]. by rewrite lookup_delete_eq.
Qed.

Lemma Set_add_prefix n (names : list string) : ∃ l, Set_add n names = names ++ l.
Proof.
  unfold Set_add. case_decide; [exists []|exists [n]]; [by rewrite app_nil_r|done].
Qed.

Lemma Set_delete_absent n (names : list string) : n ∉ names → Set_delete n names = names.
Proof.
  intros Hn. unfold Set_delete. induction names as [|x names IH]; [done|].
  rewrite filter_cons. rewrite decide_True by set_solver.
  f_equal. apply IH. set_solver.
Qed.

End basics.

Section reads.

Implicit Types (this : AliasMap) (s : string).

Lemma get_string this s : get (VStr s) this = (Returned (Map_get (_map this) s), this).
Proof. reflexivity. Qed.

Lemma has_string this s : has (VStr s) this = (Returned (Map_has (_map this) s), this).
Proof. reflexivity. Qed.

Lemma Map_has_true (m : gmap string value) s : Map_has m s = true ↔ is_Some (m !! s).
Proof. unfold Map_has. apply bool_decide_eq_true. Qed.

Lemma Map_has_false (m : gmap string value) s : Map_has m s = false ↔ m !! s = None.
Proof. unfold Map_has. rewrite bool_decide_eq_false. symmetry. apply eq_None_not_Some. Qed.

Lemma Map_get_Some (m : gmap string value) s v : m !! s = Some v → Map_get m s = v.
Proof. unfold Map_get. by intros ->. Qed.

End reads.

(** ** The scenario of the specification, run *)

Example scenario_set_red :
  let m := (call_set [red] new_AliasMap).2 in
  size m = 1 ∧ (get (VStr "crimson") m).1 = Returned red.
Proof. split; by vm_compute. Qed.

Example scenario_set_blue :
  let m := (call_set [blue; VNum 42] (call_set [red] new_AliasMap).2).2 in
  size m = 2 ∧ drain (keys_next m) 3 keys = Some ["red"; "blue"].
Proof. split; by vm_compute. Qed.

Example scenario_delete_red :
  let m := (call_set [blue; VNum 42] (call_set [red] new_AliasMap).2).2 in
  (delete red m).1 = Returned true ∧ size (delete red m).2 = 1.
Proof. split; by vm_compute. Qed.

Example scenario_get_number :
  let m := (call_set [red] new_AliasMap).2 in
  get (VNum 123) m = (Thrown InvalidArgument, m).
Proof. reflexivity. Qed.

Example scenario_inserted_at :
  let ops := [OpSet red VUndefined; OpSet blue (VNum 42); OpSet red (VNum 1);
              OpDelete red; OpSet (mk_key "red" []) VNull] in
  inserted_at ops "blue" = Some 1 ∧ inserted_at ops "red" = Some 4 ∧
  inserted_at ops "r" = None ∧ _nameSet (run ops) = ["blue"; "red"].
Proof. split_and!; by vm_compute. Qed.

Example scenario_entry_value :
  let ops := [OpSet red VUndefined; OpSet blue (VNum 42); OpSet red (VNum 1)] in
  entry_value ops "red" = Some (VNum 1) ∧ entry_value ops "blue" = Some (VNum 42) ∧
  entry_value ops "crimson" = None.
Proof. split_and!; by vm_compute. Qed.

(** ** [delete] and its answer *)

(** C1, as stated, fails: after [set({name: "red", aliasArr: ["r"]})] the
    string ["r"] is filed in the flat association but is no primary name,
    and [delete({name: "r", aliasArr: []})] answers [true]. *)
Lemma delete_alias_name_answers_true :
  let this := run [OpSet (mk_key "red" ["r"]) VUndefined] in
  let k := mk_key "r" [] in
  valid_key k "r" [] ∧
  ¬ ((delete k this).1 = Returned true ↔ "r" ∈ _nameSet this).
Proof.
  split; [reflexivity|]. intros [Hin _].
  assert ("r" ∈ ["red"]) as Hr by (apply Hin; vm_compute; reflexivity).
  apply list_elem_of_singleton in Hr. discriminate.
Qed.

(** C1, amended: for every state and every valid key, [delete] answers
    [true] exactly when [key.name] was a key of the flat association before
    the call, that is, when [has(key.name)] was true, be it as a primary
    name or as an alias. *)
Theorem delete_answers_flat_presence (this : AliasMap) (key : value)
    (n : string) (al : list string) :
  valid_key key n al →
  (delete key this).1 = (has (VStr n) this).1 ∧
  ((delete key this).1 = Returned true ↔ is_Some (_map this !! n)).
Proof.
  intros Hk. rewrite (delete_valid _ _ _ _ Hk), has_string. simpl. split; [done|].
  rewrite <- Map_has_true. split; [by intros [= ->]|by intros ->].
Qed.

Lemma delete_answers_flat_presence_witness :
  (delete (mk_key "r" []) (run [OpSet (mk_key "red" ["r"]) VUndefined])).1
  = Returned true.
Proof.
  apply (delete_answers_flat_presence _ (mk_key "r" []) "r" []); [reflexivity|].
  vm_compute. eauto.
Defined.

(** C9, as stated, fails in its first half: ["crimson"] is no primary name
    of the container, yet [delete({name: "crimson", aliasArr: []})] answers
    [true], the string being filed as an alias of ["red"]. *)
Lemma delete_of_alias_string_answers_true :
  let this := run [OpSet (mk_key "red" ["r"; "crimson"]) (VNum 7)] in
  let k := mk_key "crimson" [] in
  valid_key k "crimson" [] ∧ ("crimson" ∉ _nameSet this) ∧
  (delete k this).1 ≠ Returned false.
Proof.
  split; [reflexivity|]. split; [|by vm_compute].
  intros Hin%list_elem_of_singleton. discriminate.
Qed.

(** C9, amended: for a valid key whose name is no stored primary name,
    [delete] answers [false] exactly when the name is absent from the flat
    association as well (it answers [true] when the name was filed as
    another entry's alias); either way the primary-name set is left as it
    was, and the flat association loses [key.name] and every string of
    [key.aliasArr], so [has] answers [false] on each of them afterwards. *)
Theorem delete_unstored_name (this : AliasMap) (key : value)
    (n : string) (al : list string) :
  valid_key key n al →
  n ∉ _nameSet this →
  let after := (delete key this).2 in
  ((delete key this).1 = Returned false ↔ _map this !! n = None) ∧
  ((delete key this).1 = Returned true ↔ is_Some (_map this !! n)) ∧
  _nameSet after = _nameSet this ∧
  ∀ s, s = n ∨ s ∈ al → has (VStr s) after = (Returned false, after).
Proof.
  intros Hk Hn. rewrite (delete_valid _ _ _ _ Hk). cbn [fst snd].
  rewrite <- Map_has_false, <- Map_has_true. repeat split.
  - by intros [= ->].
  - by intros ->.
  - by intros [= ->].
  - by intros ->.
  - by apply Set_delete_absent.
  - intros s Hs. rewrite has_string. do 2 f_equal.
    apply Map_has_false. by apply lookup_delete_state.
Qed.

Lemma delete_unstored_name_witness :
  let this := run [OpSet (mk_key "red" ["r"; "crimson"]) (VNum 7)] in
  let after := (delete (mk_key "blue" ["r"]) this).2 in
  _nameSet after = ["red"] ∧
  has (VStr "r") after = (Returned false, after).
Proof.
  intros this after.
  assert (valid_key (mk_key "blue" ["r"]) "blue" ["r"]) as Hk
    by reflexivity.
  assert ("blue" ∉ _nameSet this) as Hn
    by (intros Hin%list_elem_of_singleton; discriminate).
  destruct (delete_unstored_name this _ _ _ Hk Hn) as (_ & _ & Hns & Hhas).
  split; [exact Hns|]. apply Hhas. right. apply list_elem_of_singleton. reflexivity.
Defined.

(** ** Malformed arguments *)

(** C3: a malformed argument makes the method throw an invalid-argument
    error and leaves the container exactly as it was: [has] and [get] on a
    non-string, [set] and [delete] on a key that lacks a string [name] or
    an array-of-strings [aliasArr], [forEach] on a non-function. *)
Theorem malformed_argument_throws_unchanged (this : AliasMap) :
  (∀ v : value, (∀ s, v ≠ VStr s) →
     has v this = (Thrown InvalidArgument, this) ∧
     get v this = (Thrown InvalidArgument, this)) ∧
  (∀ key v : value, (∀ n al, ¬ valid_key key n al) →
     set key v this = (Thrown InvalidArgument, this) ∧
     delete key this = (Thrown InvalidArgument, this)) ∧
  (∀ iteratorFn : value, typeof iteratorFn ≠ "function" →
     forEach iteratorFn this = (Thrown InvalidArgument, this)).
Proof.
  split; [|split].
  - intros v Hv. destruct v; try done. by destruct (Hv s).
  - intros key v Hk.
    assert (key_shape key = None) as Hnone.
    { destruct (key_shape key) as [[n al]|] eqn:E; [|done]. by destruct (Hk n al). }
    split; [by apply set_malformed|by apply delete_malformed].
  - intros f Hf. unfold forEach. run_monad. by rewrite decide_False.
Qed.

Lemma malformed_argument_throws_unchanged_witness :
  let this := run [OpSet (mk_key "red" ["r"]) VUndefined] in
  get (VNum 123) this = (Thrown InvalidArgument, this) ∧
  set (VObj [("name", VStr "blue")]) (VNum 42) this
    = (Thrown InvalidArgument, this) ∧
  forEach VNull this = (Thrown InvalidArgument, this).
Proof.
  intros this.
  destruct (malformed_argument_throws_unchanged this) as (Hs & Hk & Hf).
  split; [|split].
  - apply Hs. intros s. discriminate.
  - apply Hk. intros n al. unfold valid_key. vm_compute. discriminate.
  - apply Hf. vm_compute. discriminate.
Defined.

(** ** [set] followed by [get] and [has] *)

Section after_set.

Implicit Types (this : AliasMap) (key v : value) (n s : string) (al : list string).

(** After a valid [set], every name of the key reads back the stored
    value and is reported present. *)
Lemma set_then_read this key v n al s :
  valid_key key n al → s = n ∨ s ∈ al →
  let after := (set key v this).2 in
  get (VStr s) after = (Returned (stored_value key v), after) ∧
  has (VStr s) after = (Returned true, after).
Proof.
  intros Hk Hs. rewrite (set_valid _ _ _ _ _ Hk). cbn [snd].
  rewrite get_string, has_string.
  pose proof (lookup_set_state this n al (stored_value key v) s Hs) as Hl.
  split; do 2 f_equal.
  - by apply Map_get_Some.
  - apply Map_has_true. by rewrite Hl.
Qed.

End after_set.

(** C4, as stated, fails at the value [undefined]: [set(k, undefined)]
    files [k], so [get(k.name)] is [k] and not [undefined]. *)
Lemma set_undefined_get_returns_key :
  let k := mk_key "n" ["a"; "b"] in
  let after := (set k VUndefined new_AliasMap).2 in
  valid_key k "n" ["a"; "b"] ∧
  (get (VStr "n") after).1 = Returned k ∧
  (get (VStr "n") after).1 ≠ Returned VUndefined.
Proof. split; [reflexivity|]. split; by vm_compute. Qed.

(** C4, amended: for every state, valid key [k] and value [v], right after
    [set(k, v)] the method [has] answers [true] for [k.name] and for every
    string of [k.aliasArr], and [get] answers, for each of them, [v] when
    [v] is not [undefined] and [k] itself when it is. *)
Theorem set_then_get_has (this : AliasMap) (key v : value)
    (n : string) (al : list string) :
  valid_key key n al →
  let after := (set key v this).2 in
  (set key v this).1 = Returned tt ∧
  (∀ s, s = n ∨ s ∈ al → has (VStr s) after = (Returned true, after)) ∧
  (v ≠ VUndefined →
     ∀ s, s = n ∨ s ∈ al → get (VStr s) after = (Returned v, after)) ∧
  (v = VUndefined →
     ∀ s, s = n ∨ s ∈ al → get (VStr s) after = (Returned key, after)).
Proof.
  intros Hk after. split; [by rewrite (set_valid _ _ _ _ _ Hk)|].
  split; [|split].
  - intros s Hs. by apply (set_then_read this key v n al s).
  - intros Hv s Hs. rewrite <- (stored_value_defined key v Hv).
    by apply (set_then_read this key v n al s).
  - intros -> s Hs. by apply (set_then_read this key VUndefined n al s).
Qed.

Lemma set_then_get_has_witness :
  let after := (set (mk_key "n" ["a"; "b"]) (VNum 42) new_AliasMap).2 in
  get (VStr "b") after = (Returned (VNum 42), after) ∧
  has (VStr "a") after = (Returned true, after).
Proof.
  intros after.
  destruct (set_then_get_has new_AliasMap (mk_key "n" ["a"; "b"]) (VNum 42)
              "n" ["a"; "b"]) as (_ & Hhas & Hget & _); [reflexivity|].
  split.
  - apply Hget; [discriminate|]. right. apply elem_of_cons. right.
    apply list_elem_of_singleton. reflexivity.
  - apply Hhas. right. apply elem_of_cons. left. reflexivity.
Defined.

(** C8: [set(k)] with no value argument files [k] itself, so [get] of
    [k.name] and of every string of [k.aliasArr] answers [k]. *)
Theorem set_without_value_stores_key (this : AliasMap) (key : value)
    (n : string) (al : list string) :
  valid_key key n al →
  let after := (call_set [key] this).2 in
  (call_set [key] this).1 = Returned tt ∧
  ∀ s, s = n ∨ s ∈ al → get (VStr s) after = (Returned key, after).
Proof.
  intros Hk after. unfold after, call_set, arg. cbn [lookup list_lookup default].
  split; [by rewrite (set_valid _ _ _ _ _ Hk)|].
  intros s Hs. by apply (set_then_read this key VUndefined n al s).
Qed.

Lemma set_without_value_stores_key_witness :
  let k := mk_key "red" ["r"; "crimson"] in
  let after := (call_set [k] new_AliasMap).2 in
  get (VStr "crimson") after = (Returned k, after).
Proof.
  intros k after.
  apply (set_without_value_stores_key new_AliasMap k "red" ["r"; "crimson"]);
    [reflexivity|].
  right. apply elem_of_cons. right. apply list_elem_of_singleton. reflexivity.
Defined.

(** C10: passing [undefined] as the value is the same call as leaving the
    value out, and files the key itself under [k.name] and under every
    string of [k.aliasArr]. *)
Theorem set_explicit_undefined_as_omitted (this : AliasMap) (key : value)
    (n : string) (al : list string) :
  valid_key key n al →
  let after := (call_set [key; VUndefined] this).2 in
  call_set [key; VUndefined] this = call_set [key] this ∧
  ∀ s, s = n ∨ s ∈ al → _map after !! s = Some key.
Proof.
  intros Hk after. split; [reflexivity|].
  intros s Hs. unfold after, call_set, arg. cbn [lookup list_lookup default].
  rewrite (set_valid _ _ _ _ _ Hk). by apply lookup_set_state.
Qed.

Lemma set_explicit_undefined_as_omitted_witness :
  let k := mk_key "red" ["r"] in
  call_set [k; VUndefined] new_AliasMap = call_set [k] new_AliasMap ∧
  _map (call_set [k; VUndefined] new_AliasMap).2 !! "r" = Some k.
Proof.
  intros k.
  destruct (set_explicit_undefined_as_omitted new_AliasMap k "red" ["r"])
    as [Heq Hl]; [reflexivity|].
  split; [exact Heq|]. apply Hl. right. apply list_elem_of_singleton. reflexivity.
Defined.

(** ** Setting a name again, and colliding names *)

(** C6: when [n] is already a stored primary name, a further [set] under
    the name [n] leaves the iteration order exactly as it was (no second
    occurrence of [n], no change of position) and does not raise [size]. *)
Theorem set_again_keeps_order (this : AliasMap) (key v : value)
    (n : string) (al : list string) :
  valid_key key n al →
  n ∈ _nameSet this →
  let after := (set key v this).2 in
  _nameSet after = _nameSet this ∧ size after = size this.
Proof.
  intros Hk Hn. rewrite (set_valid _ _ _ _ _ Hk). cbn [snd].
  unfold size. simpl. unfold Set_add. by rewrite decide_True.
Qed.

Lemma set_again_keeps_order_witness :
  let this := run [OpSet (mk_key "red" ["r"]) VUndefined;
                   OpSet (mk_key "blue" []) (VNum 42)] in
  let after := (set (mk_key "red" ["crimson"]) (VNum 1) this).2 in
  _nameSet after = ["red"; "blue"] ∧ size after = 2.
Proof.
  intros this after.
  apply (set_again_keeps_order this (mk_key "red" ["crimson"]) (VNum 1)
           "red" ["crimson"]); [reflexivity|].
  apply elem_of_cons. left. reflexivity.
Defined.

(** C7: a [set] one of whose names (primary or alias) is a string already
    filed in the flat association overwrites that association, so [get] of
    the string answers the new entry's value; every primary name stored
    before stays in the primary-name set, at its position, and [size] does
    not go down. *)
Theorem set_collision_overwrites (this : AliasMap) (key v old : value)
    (n s : string) (al : list string) :
  valid_key key n al →
  s = n ∨ s ∈ al →
  _map this !! s = Some old →
  let after := (set key v this).2 in
  get (VStr s) after = (Returned (stored_value key v), after) ∧
  (∃ added, _nameSet after = _nameSet this ++ added) ∧
  (∀ p, p ∈ _nameSet this → p ∈ _nameSet after) ∧
  size this ≤ size after.
Proof.
  intros Hk Hs _ after.
  split; [by apply (set_then_read this key v n al s)|].
  unfold after. rewrite (set_valid _ _ _ _ _ Hk). cbn [snd]. unfold size. simpl.
  destruct (Set_add_prefix n (_nameSet this)) as [added ->].
  split; [by exists added|]. split.
  - intros p Hp. apply elem_of_app. by left.
  - unfold Set_size. rewrite length_app. lia.
Qed.

Lemma set_collision_overwrites_witness :
  let this := run [OpSet (mk_key "red" ["r"]) (VNum 1)] in
  let after := (set (mk_key "rose" ["red"]) (VNum 2) this).2 in
  get (VStr "red") after = (Returned (VNum 2), after) ∧
  "red" ∈ _nameSet after ∧ size this ≤ size after.
Proof.
  intros this after.
  destruct (set_collision_overwrites this (mk_key "rose" ["red"]) (VNum 2) (VNum 1)
              "rose" "red" ["red"]) as (Hget & _ & Hin & Hsz).
  - reflexivity.
  - right. apply list_elem_of_singleton. reflexivity.
  - vm_compute. reflexivity.
  - split; [exact Hget|]. split; [|exact Hsz].
    apply Hin. apply list_elem_of_singleton. reflexivity.
Defined.

(** ** Histories *)

Section histories.

Implicit Types (this : AliasMap) (ops : list op) (o : op) (n : string)
  (names : list string) (f : string → option nat).

Lemma run_snoc ops o : run (ops ++ [o]) = exec (run ops) o.
Proof. unfold run. by rewrite foldl_app. Qed.

Lemma exec_set this key v :
  exec this (OpSet key v)
  = match key_shape key with
    | Some (n, al) => set_state n al (stored_value key v) this
    | None => this
    end.
Proof.
  simpl. destruct (key_shape key) as [[n al]|] eqn:Hk.
  - by rewrite (set_valid _ _ _ n al).
  - by rewrite set_malformed.
Qed.

Lemma exec_delete this key :
  exec this (OpDelete key)
  = match key_shape key with
    | Some (n, al) => delete_state n al this
    | None => this
    end.
Proof.
  simpl. destruct (key_shape key) as [[n al]|] eqn:Hk.
  - by rewrite (delete_valid _ _ n al).
  - by rewrite delete_malformed.
Qed.

Lemma exec_clear this : exec this OpClear = new_AliasMap.
Proof. reflexivity. Qed.

Lemma elem_of_Set_add x n names : x ∈ Set_add n names ↔ x = n ∨ x ∈ names.
Proof.
  unfold Set_add. case_decide as Hin.
  - split; [by right|]. by intros [->|?].
  - rewrite elem_of_app, list_elem_of_singleton. tauto.
Qed.

Lemma elem_of_Set_delete x n names : x ∈ Set_delete n names ↔ x ≠ n ∧ x ∈ names.
Proof. unfold Set_delete. by rewrite list_elem_of_filter. Qed.

Lemma NoDup_Set_add n names : NoDup names → NoDup (Set_add n names).
Proof.
  intros Hnd. unfold Set_add. case_decide as Hin; [done|].
  apply NoDup_app. split; [done|]. split; [|apply NoDup_singleton].
  intros x Hx ->%list_elem_of_singleton. done.
Qed.

Lemma inserted_count n ops : (foldl (inserted_step n) (0, None) ops).1 = length ops.
Proof.
  induction ops as [|o ops IH] using rev_ind; [done|].
  rewrite foldl_app, length_app. simpl. rewrite IH. lia.
Qed.

Lemma inserted_at_snoc ops o n :
  inserted_at (ops ++ [o]) n = (inserted_step n (length ops, inserted_at ops n) o).2.
Proof.
  unfold inserted_at. rewrite foldl_app. simpl.
  by rewrite (inserted_count n ops).
Qed.

Lemma inserted_at_lt ops n t : inserted_at ops n = Some t → t < length ops.
Proof.
  revert t. induction ops as [|o ops IH] using rev_ind; intros t; [done|].
  rewrite inserted_at_snoc, length_app. simpl.
  assert (∀ t', inserted_at ops n = Some t' → t' < length ops + 1) as IH'.
  { intros t' Ht'. apply IH in Ht'. lia. }
  destruct o as [key v|key|]; simpl; [| |done].
  - destruct (key_shape key) as [[n' al]|]; [|by apply IH'].
    case_decide; [|by apply IH'].
    destruct (inserted_at ops n) as [t0|] eqn:E; simpl; intros [= <-].
    + by apply IH'.
    + lia.
  - destruct (key_shape key) as [[n' al]|]; [|by apply IH'].
    case_decide; [done|by apply IH'].
Qed.

Lemma StronglySorted_weaken (R R' : relation string) names :
  (∀ a b, a ∈ names → b ∈ names → R a b → R' a b) →
  StronglySorted R names → StronglySorted R' names.
Proof.
  intros Himp Hs. induction Hs as [|a l Hs IH Hall]; constructor.
  - apply IH. intros x y Hx Hy. apply Himp; apply elem_of_cons; by right.
  - apply Forall_forall. intros y Hy. apply Himp.
    + apply elem_of_cons. by left.
    + apply elem_of_cons. by right.
    + by apply (proj1 (Forall_forall _ _) Hall).
Qed.

Lemma StronglySorted_filter (R : relation string) (P : string → Prop)
    `{∀ x, Decision (P x)} names :
  StronglySorted R names → StronglySorted R (filter P names).
Proof.
  intros Hs. induction Hs as [|a l Hs IH Hall]; [constructor|].
  rewrite filter_cons. case_decide; [|done]. constructor; [done|].
  apply Forall_forall. intros y [_ Hy]%list_elem_of_filter.
  by apply (proj1 (Forall_forall _ _) Hall).
Qed.

Lemma ordered_by_ext f f' names :
  (∀ n, f' n = f n) → ordered_by f names → ordered_by f' names.
Proof.
  intros Heq [Hmem Hs]. split.
  - intros n. by rewrite Heq.
  - eapply StronglySorted_weaken; [|exact Hs].
    intros a b _ _ (ta & tb & Ha & Hb & Hlt). exists ta, tb. by rewrite !Heq.
Qed.

Lemma ordered_by_add f names n0 t :
  (∀ n t', f n = Some t' → t' < t) →
  ordered_by f names →
  ordered_by (λ n, if decide (n0 = n) then Some (default t (f n)) else f n)
             (Set_add n0 names).
Proof.
  intros Hlt [Hmem Hs]. split.
  - intros n. rewrite elem_of_Set_add, Hmem. case_decide as Hn.
    + split; [eauto|]. by left.
    + split; [|by right]. by intros [->|?].
  - assert (StronglySorted
      (λ a b, ∃ ta tb,
         (if decide (n0 = a) then Some (default t (f a)) else f a) = Some ta ∧
         (if decide (n0 = b) then Some (default t (f b)) else f b) = Some tb ∧
         ta < tb) names) as Hs'.
    { eapply StronglySorted_weaken; [|exact Hs].
      intros a b _ _ (ta & tb & Ha & Hb & Hab). exists ta, tb.
      rewrite Ha, Hb. simpl. by repeat case_decide. }
    unfold Set_add. case_decide as Hin; [exact Hs'|].
    apply StronglySorted_app_2; [|exact Hs'|repeat constructor].
    intros a b Ha ->%list_elem_of_singleton.
    assert (f n0 = None) as Hb.
    { apply eq_None_not_Some. by rewrite <- Hmem. }
    destruct (proj1 (Hmem a) Ha) as [ta Hta].
    exists ta, t. rewrite decide_False by (by intros <-).
    rewrite decide_True by done. rewrite Hb. simpl. eauto.
Qed.

Lemma ordered_by_delete f names n0 :
  ordered_by f names →
  ordered_by (λ n, if decide (n0 = n) then None else f n) (Set_delete n0 names).
Proof.
  intros [Hmem Hs]. split.
  - intros n. rewrite elem_of_Set_delete, Hmem. case_decide as Hn.
    + split; [by intros [? _]|by intros [? ?]].
    + split; [by intros [_ ?]|]. intros ?. split; [by intros ->|done].
  - unfold Set_delete. eapply StronglySorted_weaken;
      [|apply StronglySorted_filter; exact Hs].
    intros a b [Ha _]%list_elem_of_filter [Hb _]%list_elem_of_filter
      (ta & tb & Hta & Htb & Hab).
    exists ta, tb. by rewrite !decide_False by (by intros <-).
Qed.

Lemma ordered_by_NoDup f names : ordered_by f names → NoDup names.
Proof.
  intros [_ Hs]. induction Hs as [|a l Hs IH Hall]; [apply NoDup_nil_2|].
  apply NoDup_cons_2; [|done]. intros Ha.
  destruct (proj1 (Forall_forall _ _) Hall a Ha) as (ta & tb & Hta & Htb & Hlt).
  rewrite Hta in Htb. injection Htb as <-. lia.
Qed.

(** There is one such list only. *)
Lemma ordered_by_unique f names names' :
  ordered_by f names → ordered_by f names' → names = names'.
Proof.
  intros H H'. pose proof (ordered_by_NoDup _ _ H) as Hnd.
  pose proof (ordered_by_NoDup _ _ H') as Hnd'.
  destruct H as [Hmem Hs], H' as [Hmem' Hs'].
  eapply StronglySorted_unique_strong; [|exact Hs|exact Hs'|].
  - intros a b _ _ (ta & tb & Hta & Htb & Hlt) (tb' & ta' & Htb' & Hta' & Hlt').
    rewrite Hta in Hta'. rewrite Htb in Htb'.
    injection Hta' as <-. injection Htb' as <-. lia.
  - apply NoDup_Permutation; [done|done|]. intros x. by rewrite Hmem, Hmem'.
Qed.

(** The primary-name set lists the inserted names, earliest first. *)
Lemma nameSet_insertion_order ops : insertion_order ops (_nameSet (run ops)).
Proof.
  unfold insertion_order.
  induction ops as [|o ops IH] using rev_ind.
  - split; [|constructor]. intros n. split; [by intros ?%elem_of_nil|].
    by intros [? ?].
  - rewrite run_snoc.
    apply (ordered_by_ext
             (λ n, (inserted_step n (length ops, inserted_at ops n) o).2));
      [intros n; apply inserted_at_snoc|].
    destruct o as [key v|key|].
    + rewrite exec_set. simpl. destruct (key_shape key) as [[n0 al]|]; [|done].
      simpl. apply ordered_by_add; [|done]. intros n t'. apply inserted_at_lt.
    + rewrite exec_delete. simpl. destruct (key_shape key) as [[n0 al]|]; [|done].
      simpl. by apply ordered_by_delete.
    + rewrite exec_clear. simpl. split; [|constructor].
      intros n. split; [by intros ?%elem_of_nil|by intros [? ?]].
Qed.

End histories.

(** ** Iteration *)

Section iteration.

Implicit Types (this : AliasMap) (names : list string).

(** Draining an iterator built on the name set's iterator yields the image
    of the names from the cursor on, given fuel for one pull more than
    there are names left. *)
Lemma drain_names {A} (g : string → A) (next : SetIterator → option A * SetIterator)
    names :
  (∀ it, next it = ((g <$> (SetIterator_next names it).1), (SetIterator_next names it).2)) →
  ∀ fuel from, length names - from < fuel →
    drain next fuel {| cursor := from; finished := false |} = Some (g <$> drop from names).
Proof.
  intros Hnext. induction fuel as [|fuel IH]; intros from Hfuel; [lia|].
  simpl. rewrite Hnext. unfold SetIterator_next. simpl.
  destruct (names !! from) as [x|] eqn:Hx; simpl.
  - pose proof (lookup_lt_Some _ _ _ Hx) as Hlt.
    rewrite IH by lia. by rewrite (drop_S _ _ _ Hx).
  - apply lookup_ge_None in Hx. by rewrite drop_ge.
Qed.

Lemma drain_keys this fuel :
  size this < fuel → drain (keys_next this) fuel keys = Some (_nameSet this).
Proof.
  intros Hfuel. unfold keys, Set_iterator.
  rewrite (drain_names id (keys_next this) (_nameSet this)).
  - by rewrite list_fmap_id.
  - intros it. unfold keys_next. rewrite option_fmap_id.
    by destruct (SetIterator_next _ it).
  - unfold size, Set_size in Hfuel. lia.
Qed.

Lemma drain_values this fuel :
  size this < fuel →
  drain (values_next this) fuel values = Some (Map_get (_map this) <$> _nameSet this).
Proof.
  intros Hfuel. unfold values, Set_iterator.
  rewrite (drain_names (Map_get (_map this)) (values_next this) (_nameSet this)).
  - done.
  - intros it. unfold values_next. by destruct (SetIterator_next _ it) as [[?|] ?].
  - unfold size, Set_size in Hfuel. lia.
Qed.

Lemma drain_iterator this fuel :
  size this < fuel →
  drain (iterator_next this) fuel iterator
  = Some ((λ name, (name, Map_get (_map this) name)) <$> _nameSet this).
Proof.
  intros Hfuel. unfold iterator, Set_iterator.
  rewrite (drain_names (λ name, (name, Map_get (_map this) name))
             (iterator_next this) (_nameSet this)).
  - done.
  - intros it. unfold iterator_next. by destruct (SetIterator_next _ it) as [[?|] ?].
  - unfold size, Set_size in Hfuel. lia.
Qed.

Lemma forEach_loop_imap this names i :
  forEach_loop this names i = imap (λ j name, (Map_get (_map this) name, i + j)) names.
Proof.
  revert i. induction names as [|name names IH]; intros i; [done|].
  simpl. rewrite IH. f_equal; [by rewrite Nat.add_0_r|].
  apply imap_ext. intros j x _. simpl. do 2 f_equal. lia.
Qed.

Lemma forEach_function this iteratorFn :
  typeof iteratorFn = "function" →
  forEach iteratorFn this
  = (Returned (imap (λ i name, (Map_get (_map this) name, i)) (_nameSet this)), this).
Proof.
  intros Hf. unfold forEach. run_monad. rewrite decide_True by done.
  unfold read. by rewrite forEach_loop_imap.
Qed.

End iteration.

(** C5: on the container reached by any history, [keys()], [values()],
    default iteration and [forEach] all walk one and the same sequence of
    primary names, the name set in its own order: [keys()] yields the names,
    [values()] the value of each name in turn, default iteration the pairs
    of name and value, [forEach] the value of each name with its index from
    zero.  That sequence is the insertion order of the primary names: it
    holds exactly the names inserted and not removed since, earliest
    insertion first, and it is the only list that does. *)
Theorem iteration_follows_insertion_order (ops : list op) (iteratorFn : value)
    (fuel : nat) :
  let this := run ops in
  let names := _nameSet this in
  typeof iteratorFn = "function" →
  size this < fuel →
  insertion_order ops names ∧
  (∀ names', insertion_order ops names' → names' = names) ∧
  drain (keys_next this) fuel keys = Some names ∧
  drain (values_next this) fuel values = Some (Map_get (_map this) <$> names) ∧
  drain (iterator_next this) fuel iterator
    = Some ((λ name, (name, Map_get (_map this) name)) <$> names) ∧
  forEach iteratorFn this
    = (Returned (imap (λ i name, (Map_get (_map this) name, i)) names), this).
Proof.
  intros this names Hf Hfuel. split_and!.
  - apply nameSet_insertion_order.
  - intros names' H'. apply (ordered_by_unique (inserted_at ops)); [exact H'|].
    apply nameSet_insertion_order.
  - by apply drain_keys.
  - by apply drain_values.
  - by apply drain_iterator.
  - by apply forEach_function.
Qed.

Lemma iteration_follows_insertion_order_witness :
  let ops := [OpSet (mk_key "red" ["r"; "crimson"]) VUndefined;
              OpSet (mk_key "blue" []) (VNum 42);
              OpSet (mk_key "amber" ["a"]) (VNum 7);
              OpDelete (mk_key "red" ["r"; "crimson"]);
              OpSet (mk_key "red" []) VNull] in
  let this := run ops in
  drain (keys_next this) 4 keys = Some ["blue"; "amber"; "red"] ∧
  drain (values_next this) 4 values = Some [VNum 42; VNum 7; VNull] ∧
  drain (iterator_next this) 4 iterator
    = Some [("blue", VNum 42); ("amber", VNum 7); ("red", VNull)] ∧
  forEach (VFun "f") this = (Returned [(VNum 42, 0); (VNum 7, 1); (VNull, 2)], this).
Proof.
  intros ops this.
  destruct (iteration_follows_insertion_order ops (VFun "f") 4)
    as (_ & _ & Hk & Hv & Hi & Hf); [reflexivity|vm_compute; lia|].
  split_and!; [exact Hk|exact Hv|exact Hi|exact Hf].
Defined.

(** ** The invariant tying the two structures *)

Section invariant.

Implicit Types (this : AliasMap) (ops : list op) (o : op) (n : string).

Lemma entry_value_snoc ops o n :
  entry_value (ops ++ [o]) n = entry_step n (entry_value ops n) o.
Proof. unfold entry_value. by rewrite foldl_app. Qed.

Lemma aliases_apart_snoc this ops o :
  aliases_apart this (ops ++ [o])
  ↔ aliases_apart this ops ∧ alias_apart (foldl exec this ops) o.
Proof.
  revert this. induction ops as [|o' ops IH]; intros this; simpl.
  - tauto.
  - rewrite IH. tauto.
Qed.

Lemma NoDup_nameSet ops : NoDup (_nameSet (run ops)).
Proof.
  induction ops as [|o ops IH] using rev_ind; [apply NoDup_nil_2|].
  rewrite run_snoc. destruct o as [key v|key|].
  - rewrite exec_set. destruct (key_shape key) as [[n0 al]|]; [|done].
    by apply NoDup_Set_add.
  - rewrite exec_delete. destruct (key_shape key) as [[n0 al]|]; [|done].
    by apply NoDup_filter.
  - apply NoDup_nil_2.
Qed.

Lemma remove_dups_NoDup (names : list string) : NoDup names → remove_dups names = names.
Proof.
  induction 1 as [|x l Hx Hnd IH]; [done|].
  simpl. destruct (decide_rel elem_of x l) as [Hin|_]; [done|]. by rewrite IH.
Qed.

(** The primary-name set holds exactly the names that have an entry. *)
Lemma nameSet_entry ops n : n ∈ _nameSet (run ops) ↔ is_Some (entry_value ops n).
Proof.
  induction ops as [|o ops IH] using rev_ind.
  - split; [by intros ?%elem_of_nil|by intros [? ?]].
  - rewrite run_snoc, entry_value_snoc. destruct o as [key v|key|].
    + rewrite exec_set. simpl. destruct (key_shape key) as [[n0 al]|]; [|done].
      simpl. rewrite elem_of_Set_add, IH. case_decide as Hn.
      * split; [eauto|]. by left.
      * split; [|by right]. by intros [->|?].
    + rewrite exec_delete. simpl. destruct (key_shape key) as [[n0 al]|]; [|done].
      simpl. rewrite elem_of_Set_delete, IH. case_decide as Hn.
      * split; [by intros [? _]|by intros [? ?]].
      * split; [by intros [_ ?]|]. intros ?. split; [by intros ->|done].
    + rewrite exec_clear. simpl.
      split; [by intros ?%elem_of_nil|by intros [? ?]].
Qed.

(** Under the callers' discipline every primary name is filed with the
    value of its entry. *)
Lemma primary_name_lookup ops n :
  aliases_apart new_AliasMap ops →
  n ∈ _nameSet (run ops) → _map (run ops) !! n = entry_value ops n.
Proof.
  revert n. induction ops as [|o ops IH] using rev_ind; intros n.
  - by intros _ ?%elem_of_nil.
  - rewrite aliases_apart_snoc. fold (run ops). intros [Hops Ho].
    rewrite run_snoc, entry_value_snoc. destruct o as [key v|key|].
    + rewrite exec_set. simpl in *.
      destruct (key_shape key) as [[n0 al]|]; [|by apply IH].
      intros Hin. case_decide as Hn.
      * subst n0. apply lookup_set_state. by left.
      * simpl. rewrite lookup_foldl_set. apply elem_of_Set_add in Hin.
        destruct Hin as [->|Hin]; [done|].
        rewrite decide_False.
        -- unfold Map_set. rewrite lookup_insert_ne by done. by apply IH.
        -- intros Hal. apply Hn. symmetry.
           by apply (proj1 (Forall_forall _ _) Ho n).
    + rewrite exec_delete. simpl in *.
      destruct (key_shape key) as [[n0 al]|]; [|by apply IH].
      intros [Hne Hin]%elem_of_Set_delete. rewrite decide_False by done.
      simpl. rewrite lookup_foldl_delete. rewrite decide_False.
      * rewrite lookup_delete_ne by done. by apply IH.
      * intros Hal. apply Hne. by apply (proj1 (Forall_forall _ _) Ho n).
    + by intros ?%elem_of_nil.
Qed.

End invariant.

(** C2, as stated, fails in its first half: after
    [set({name: "a", aliasArr: []}, 1)] and
    [set({name: "b", aliasArr: ["a"]}, 2)] the primary name ["a"] is still in
    the primary-name set and its entry still has the value [1], but the flat
    association files ["a"] with [2]. *)
Lemma primary_name_filed_with_other_value :
  let ops := [OpSet (mk_key "a" []) (VNum 1); OpSet (mk_key "b" ["a"]) (VNum 2)] in
  let this := run ops in
  "a" ∈ _nameSet this ∧
  entry_value ops "a" = Some (VNum 1) ∧
  _map this !! "a" = Some (VNum 2) ∧
  _map this !! "a" ≠ entry_value ops "a".
Proof.
  split; [apply elem_of_cons; by left|].
  split; [reflexivity|]. split; by vm_compute.
Qed.

(** C2, amended: after any history of [set], [delete] and [clear] calls the
    primary-name set holds no name twice and holds exactly the names that
    have an entry, so [size] is the count of distinct primary names (the
    length of any duplicate-free list of the names that have an entry)
    however many aliases there are; and, provided no call of the history listed
    among its aliases a string that was then a stored primary name other
    than the call's own [key.name], every primary name of the set is filed
    in the flat association with the value stored for its entry. *)
Theorem primary_names_invariant (ops : list op) :
  let this := run ops in
  NoDup (_nameSet this) ∧
  size this = length (remove_dups (_nameSet this)) ∧
  (∀ n, n ∈ _nameSet this ↔ is_Some (entry_value ops n)) ∧
  (∀ ns, NoDup ns → (∀ n, n ∈ ns ↔ is_Some (entry_value ops n)) →
     size this = length ns) ∧
  (aliases_apart new_AliasMap ops →
     ∀ n, n ∈ _nameSet this →
       is_Some (_map this !! n) ∧ _map this !! n = entry_value ops n).
Proof.
  intros this. subst this. pose proof (NoDup_nameSet ops) as Hnd. split_and!.
  - exact Hnd.
  - unfold size, Set_size. by rewrite (remove_dups_NoDup _ Hnd).
  - intros n. apply nameSet_entry.
  - intros ns Hns Hmem. unfold size, Set_size. apply Permutation_length.
    apply NoDup_Permutation; [done|done|].
    intros n. by rewrite Hmem, nameSet_entry.
  - intros Hops n Hn. rewrite (primary_name_lookup ops n Hops Hn).
    split; [by apply nameSet_entry|done].
Qed.

Lemma primary_names_invariant_witness :
  let ops := [OpSet (mk_key "red" ["r"; "crimson"]) VUndefined;
              OpSet (mk_key "blue" []) (VNum 42);
              OpSet (mk_key "red" ["r"]) (VNum 3);
              OpDelete (mk_key "blue" [])] in
  let this := run ops in
  size this = 1 ∧ _map this !! "red" = Some (VNum 3).
Proof.
  intros ops this.
  destruct (primary_names_invariant ops) as (_ & Hsz & _ & _ & Hfiled).
  split; [exact Hsz|].
  apply Hfiled.
  - apply (bool_decide_unpack _). vm_compute. exact I.
  - apply list_elem_of_singleton. reflexivity.
Defined.

(** * Further properties of the class *)

(** ** The two structures after [set] and [delete], name by name *)

Section frames.

Implicit Types (this : AliasMap) (key v : value) (n s p : string)
  (al names : list string).

Lemma lookup_set_state_full this n al v s :
  _map (set_state n al v this) !! s
  = if decide (s = n ∨ s ∈ al) then Some v else _map this !! s.
Proof.
  simpl. rewrite lookup_foldl_set. unfold Map_set.
  destruct (decide (s ∈ al)) as [Hin|Hin].
  - rewrite decide_True; [done|by right].
  - destruct (decide (s = n)) as [->|Hne].
    + rewrite decide_True by (by left). by rewrite lookup_insert_eq.
    + rewrite decide_False by (by intros [?|?]). by rewrite lookup_insert_ne.
Qed.

Lemma lookup_delete_state_full this n al s :
  _map (delete_state n al this) !! s
  = if decide (s = n ∨ s ∈ al) then None else _map this !! s.
Proof.
  simpl. rewrite lookup_foldl_delete.
  destruct (decide (s ∈ al)) as [Hin|Hin].
  - rewrite decide_True; [done|by right].
  - destruct (decide (s = n)) as [->|Hne].
    + rewrite decide_True by (by left). by rewrite lookup_delete_eq.
    + rewrite decide_False by (by intros [?|?]). by rewrite lookup_delete_ne.
Qed.

Lemma AliasMap_eq this this' :
  (∀ s, _map this !! s = _map this' !! s) → _nameSet this = _nameSet this' →
  this = this'.
Proof.
  destruct this as [m ns], this' as [m' ns']. simpl. intros Hm ->.
  f_equal. by apply map_eq.
Qed.

Lemma Set_delete_fresh n names : n ∉ Set_delete n names.
Proof. rewrite elem_of_Set_delete. by intros [? _]. Qed.

Lemma Set_delete_Set_add n names : n ∉ names → Set_delete n (Set_add n names) = names.
Proof.
  intros Hn. unfold Set_add. rewrite decide_False by done.
  unfold Set_delete. rewrite filter_app, filter_cons, decide_False by (by intros ?).
  rewrite filter_nil, app_nil_r. by apply Set_delete_absent.
Qed.

Lemma Set_delete_length n names :
  NoDup names → n ∈ names → length (Set_delete n names) + 1 = length names.
Proof.
  unfold Set_delete. induction 1 as [|x l Hx Hnd IH]; [by intros ?%elem_of_nil|].
  intros Hin. rewrite filter_cons. destruct (decide (x = n)) as [->|Hne].
  - rewrite decide_False by (by intros ?).
    fold (Set_delete n l). rewrite Set_delete_absent by done. simpl. lia.
  - rewrite decide_True by done. simpl. rewrite <- IH; [lia|].
    apply elem_of_cons in Hin. by destruct Hin as [->|?].
Qed.

Lemma stored_value_not_undefined key v n al :
  valid_key key n al → stored_value key v ≠ VUndefined.
Proof.
  intros Hk. unfold stored_value. case_decide as Ht.
  - intros ->. done.
  - intros ->. done.
Qed.

End frames.

(** ** [clear] *)

(** X1: [clear()] leaves a container that answers like a new one whatever
    it held: [size] is 0, [has] is false and [get] is [undefined] for every
    string, [forEach] calls nothing and the iterators are done at once; and
    a history goes on after a [clear] as if nothing had come before it. *)
Theorem clear_forgets_everything (this : AliasMap) (s : string) (fuel : nat)
    (before later : list op) :
  let after := (clear this).2 in
  clear this = (Returned tt, new_AliasMap) ∧
  size after = 0 ∧
  has (VStr s) after = (Returned false, after) ∧
  get (VStr s) after = (Returned VUndefined, after) ∧
  forEach (VFun "f") after = (Returned [], after) ∧
  drain (keys_next after) (S fuel) keys = Some [] ∧
  drain (values_next after) (S fuel) values = Some [] ∧
  drain (iterator_next after) (S fuel) iterator = Some [] ∧
  run (before ++ OpClear :: later) = run later.
Proof.
  intros after. split_and!; try done.
  unfold run. by rewrite foldl_app.
Qed.

(** ** Values that are filed *)

Section filed_values.

Implicit Types (ops : list op) (s : string).

(** No history files [undefined]: [set] puts the key in its place, and a
    key that passes the checks is not [undefined]. *)
Lemma filed_value_defined ops s v :
  _map (run ops) !! s = Some v → v ≠ VUndefined.
Proof.
  revert s v. induction ops as [|o ops IH] using rev_ind; intros s v; [done|].
  rewrite run_snoc. destruct o as [key w|key|].
  - rewrite exec_set. destruct (key_shape key) as [[n al]|] eqn:Hk; [|apply IH].
    rewrite lookup_set_state_full. case_decide; [|apply IH].
    intros [= <-]. by apply (stored_value_not_undefined key w n al).
  - rewrite exec_delete. destruct (key_shape key) as [[n al]|] eqn:Hk; [|apply IH].
    rewrite lookup_delete_state_full. case_decide; [done|apply IH].
  - done.
Qed.

End filed_values.

(** X2: on the container reached by any history, [get] of a string answers
    [undefined] exactly when [has] of that string answers [false]: a missing
    name reads as [undefined] without a throw, and no name is ever filed
    with [undefined]. *)
Theorem get_undefined_iff_absent (ops : list op) (s : string) :
  let this := run ops in
  ((get (VStr s) this).1 = Returned VUndefined ↔ (has (VStr s) this).1 = Returned false) ∧
  ((get (VStr s) this).1 ≠ Returned VUndefined ↔ (has (VStr s) this).1 = Returned true).
Proof.
  intros this. rewrite get_string, has_string. cbn [fst].
  destruct (_map this !! s) as [v|] eqn:Hs.
  - pose proof (filed_value_defined ops s v Hs) as Hv.
    rewrite (Map_get_Some _ _ _ Hs).
    assert (Map_has (_map this) s = true) as -> by (apply Map_has_true; eauto).
    split; split; try done.
    + by intros [= ->].
    + intros _ [= ->]. done.
  - assert (Map_has (_map this) s = false) as -> by (by apply Map_has_false).
    unfold Map_get. rewrite Hs. split; split; done.
Qed.

(** ** What [set] touches and what it leaves *)

(** X3: a valid [set(k, v)] changes the flat association at the names of
    [k] only: for any other string [has] and [get] answer as before; and the
    primary names afterwards are those from before together with
    [k.name]. *)
Theorem set_leaves_other_names (this : AliasMap) (key v : value)
    (n s : string) (al : list string) :
  valid_key key n al →
  s ≠ n → s ∉ al →
  let after := (set key v this).2 in
  (get (VStr s) after).1 = (get (VStr s) this).1 ∧
  (has (VStr s) after).1 = (has (VStr s) this).1 ∧
  (s ∈ _nameSet after ↔ s ∈ _nameSet this) ∧
  (∀ p, p ∈ _nameSet after ↔ p = n ∨ p ∈ _nameSet this).
Proof.
  intros Hk Hn Hal. rewrite (set_valid _ _ _ _ _ Hk). cbn [snd].
  rewrite !get_string, !has_string. cbn [fst]. unfold Map_get, Map_has.
  rewrite lookup_set_state_full. rewrite decide_False by (by intros [?|?]).
  split_and!; try done.
  - simpl. rewrite elem_of_Set_add. split; [by intros [?|?]|by right].
  - intros p. simpl. apply elem_of_Set_add.
Qed.

Lemma set_leaves_other_names_witness :
  let this := run [OpSet red (VNum 1)] in
  let after := (set (mk_key "red" ["rouge"]) (VNum 2) this).2 in
  (get (VStr "crimson") after).1 = (get (VStr "crimson") this).1 ∧
  (get (VStr "crimson") this).1 = Returned (VNum 1) ∧
  (get (VStr "red") after).1 = Returned (VNum 2).
Proof.
  intros this after.
  destruct (set_leaves_other_names this (mk_key "red" ["rouge"]) (VNum 2)
              "red" "crimson" ["rouge"]) as (Hget & _).
  - reflexivity.
  - discriminate.
  - intros [=]%list_elem_of_singleton.
  - split; [exact Hget|]. split; by vm_compute.
Defined.

(** X4: a valid [set] under a name that is not yet a primary name puts that
    name at the end of the iteration order and raises [size] by one, however
    many aliases the key lists. *)
Theorem set_new_name_appends (this : AliasMap) (key v : value)
    (n : string) (al : list string) :
  valid_key key n al →
  n ∉ _nameSet this →
  let after := (set key v this).2 in
  _nameSet after = _nameSet this ++ [n] ∧ size after = size this + 1.
Proof.
  intros Hk Hn. rewrite (set_valid _ _ _ _ _ Hk). cbn [snd].
  unfold size, Set_size. simpl. unfold Set_add. rewrite decide_False by done.
  split; [done|]. rewrite length_app. simpl. lia.
Qed.

Lemma set_new_name_appends_witness :
  let this := run [OpSet red VUndefined] in
  let after := (set (mk_key "blue" ["b"; "azure"; "navy"]) (VNum 42) this).2 in
  _nameSet after = ["red"; "blue"] ∧ size after = 2.
Proof.
  intros this after.
  apply (set_new_name_appends this (mk_key "blue" ["b"; "azure"; "navy"]) (VNum 42)
           "blue" ["b"; "azure"; "navy"]); [reflexivity|].
  intros [=]%list_elem_of_singleton.
Defined.

(** X5: [set] is idempotent: a second [set] with the same key and value
    leaves the container exactly as the first one did. *)
Theorem set_twice_is_set_once (this : AliasMap) (key v : value)
    (n : string) (al : list string) :
  valid_key key n al →
  let after := (set key v this).2 in
  set key v after = (Returned tt, after).
Proof.
  intros Hk after. unfold after.
  rewrite (set_valid _ _ _ _ _ Hk). unfold snd. rewrite (set_valid _ _ _ _ _ Hk).
  f_equal. apply AliasMap_eq.
  - intros s. rewrite !lookup_set_state_full. by case_decide.
  - simpl. unfold Set_add at 1. rewrite decide_True; [done|].
    apply elem_of_Set_add. by left.
Qed.

Lemma set_twice_is_set_once_witness :
  let after := (set red (VNum 5) new_AliasMap).2 in
  set red (VNum 5) after = (Returned tt, after).
Proof.
  intros after.
  apply (set_twice_is_set_once new_AliasMap red (VNum 5) "red" ["r"; "crimson"]).
  reflexivity.
Defined.

(** ** What [delete] touches and what it leaves *)

(** X6: after a valid [delete(k)], whatever the container held, [has] is
    false and [get] is [undefined] for [k.name] and for every string of
    [k.aliasArr], [k.name] is no primary name any more, and [size] has not
    grown. *)
Theorem delete_removes_every_name (this : AliasMap) (key : value)
    (n s : string) (al : list string) :
  valid_key key n al →
  s = n ∨ s ∈ al →
  let after := (delete key this).2 in
  has (VStr s) after = (Returned false, after) ∧
  get (VStr s) after = (Returned VUndefined, after) ∧
  (n ∉ _nameSet after) ∧
  size after ≤ size this.
Proof.
  intros Hk Hs. rewrite (delete_valid _ _ _ _ Hk). unfold snd.
  rewrite get_string, has_string.
  pose proof (lookup_delete_state this n al s Hs) as Hl.
  split_and!.
  - do 2 f_equal. by apply Map_has_false.
  - do 2 f_equal. unfold Map_get. by rewrite Hl.
  - apply Set_delete_fresh.
  - unfold size, Set_size. simpl. unfold Set_delete. apply length_filter.
Qed.

Lemma delete_removes_every_name_witness :
  let this := run [OpSet red (VNum 1); OpSet blue (VNum 2)] in
  let after := (delete red this).2 in
  has (VStr "crimson") after = (Returned false, after) ∧
  get (VStr "crimson") after = (Returned VUndefined, after) ∧
  ("red" ∉ _nameSet after) ∧ size after ≤ 2.
Proof.
  intros this after.
  apply (delete_removes_every_name this red "red" "crimson" ["r"; "crimson"]);
    [reflexivity|].
  right. apply elem_of_cons. right. apply list_elem_of_singleton. reflexivity.
Defined.

(** X7: a valid [delete(k)] changes the flat association at the names of
    [k] only and takes nothing but [k.name] out of the primary names: any
    other string keeps its [has] and [get] answers, and the primary names
    that remain keep their order. *)
Theorem delete_leaves_other_names (this : AliasMap) (key : value)
    (n s : string) (al : list string) :
  valid_key key n al →
  s ≠ n → s ∉ al →
  let after := (delete key this).2 in
  (get (VStr s) after).1 = (get (VStr s) this).1 ∧
  (has (VStr s) after).1 = (has (VStr s) this).1 ∧
  (∀ p, p ∈ _nameSet after ↔ p ≠ n ∧ p ∈ _nameSet this) ∧
  _nameSet after `sublist_of` _nameSet this.
Proof.
  intros Hk Hn Hal. rewrite (delete_valid _ _ _ _ Hk). unfold snd.
  rewrite !get_string, !has_string. cbn [fst]. unfold Map_get, Map_has.
  rewrite lookup_delete_state_full. rewrite decide_False by (by intros [?|?]).
  split_and!; try done.
  - intros p. simpl. apply elem_of_Set_delete.
  - simpl. unfold Set_delete. apply sublist_filter.
Qed.

Lemma delete_leaves_other_names_witness :
  let this := run [OpSet red (VNum 1); OpSet blue (VNum 2)] in
  let after := (delete (mk_key "red" ["r"]) this).2 in
  (get (VStr "crimson") after).1 = (get (VStr "crimson") this).1 ∧
  (get (VStr "crimson") this).1 = Returned (VNum 1) ∧
  (has (VStr "red") after).1 = Returned false.
Proof.
  intros this after.
  destruct (delete_leaves_other_names this (mk_key "red" ["r"])
              "red" "crimson" ["r"]) as (Hget & _).
  - reflexivity.
  - discriminate.
  - intros [=]%list_elem_of_singleton.
  - split; [exact Hget|]. split; by vm_compute.
Defined.

(** X8: a second [delete] with the same key answers [false] and leaves the
    container exactly as the first one did. *)
Theorem delete_twice_answers_false (this : AliasMap) (key : value)
    (n : string) (al : list string) :
  valid_key key n al →
  let after := (delete key this).2 in
  delete key after = (Returned false, after).
Proof.
  intros Hk after. unfold after.
  rewrite (delete_valid _ _ _ _ Hk). unfold snd. rewrite (delete_valid _ _ _ _ Hk).
  f_equal.
  - f_equal. apply Map_has_false. apply lookup_delete_state. by left.
  - apply AliasMap_eq.
    + intros s. rewrite !lookup_delete_state_full. by case_decide.
    + simpl. apply Set_delete_absent, Set_delete_fresh.
Qed.

Lemma delete_twice_answers_false_witness :
  let after := (delete red (run [OpSet red VUndefined; OpSet blue (VNum 2)])).2 in
  delete red after = (Returned false, after).
Proof.
  intros after.
  apply (delete_twice_answers_false _ red "red" ["r"; "crimson"]). reflexivity.
Defined.

(** X9: round trip.  When none of the names of [k] is filed and [k.name] is
    no primary name, [set(k, v)] followed by [delete(k)] answers [true] and
    gives back the very container from before the [set]. *)
Theorem set_then_delete_restores (this : AliasMap) (key v : value)
    (n : string) (al : list string) :
  valid_key key n al →
  n ∉ _nameSet this →
  (∀ s, s = n ∨ s ∈ al → _map this !! s = None) →
  delete key (set key v this).2 = (Returned true, this).
Proof.
  intros Hk Hn Hfresh.
  rewrite (set_valid _ _ _ _ _ Hk). unfold snd. rewrite (delete_valid _ _ _ _ Hk).
  f_equal.
  - f_equal. apply Map_has_true. rewrite lookup_set_state; [eauto|by left].
  - apply AliasMap_eq.
    + intros s. rewrite lookup_delete_state_full, lookup_set_state_full.
      case_decide as Hs; [|done]. symmetry. by apply Hfresh.
    + simpl. by apply Set_delete_Set_add.
Qed.

Lemma set_then_delete_restores_witness :
  let this := run [OpSet blue (VNum 2)] in
  delete red (set red (VNum 1) this).2 = (Returned true, this).
Proof.
  intros this.
  apply (set_then_delete_restores this red (VNum 1) "red" ["r"; "crimson"]).
  - reflexivity.
  - intros [=]%list_elem_of_singleton.
  - intros s [->|Hs]; [by vm_compute|].
    repeat (apply elem_of_cons in Hs as [->|Hs]; [by vm_compute|]).
    by apply elem_of_nil in Hs.
Defined.

(** ** [size] along a history *)

(** X10: on the container reached by any history, a valid [delete(k)]
    lowers [size] by exactly one when [k.name] is a stored primary name, and
    leaves it as it is otherwise, whatever [delete] answers. *)
Theorem delete_size (ops : list op) (key : value) (n : string) (al : list string) :
  valid_key key n al →
  let this := run ops in
  let after := (delete key this).2 in
  (n ∈ _nameSet this → size after + 1 = size this) ∧
  (n ∉ _nameSet this → size after = size this).
Proof.
  intros Hk this after. unfold after. rewrite (delete_valid _ _ _ _ Hk).
  unfold snd, size, Set_size. simpl. split.
  - intros Hn. apply Set_delete_length; [apply NoDup_nameSet|done].
  - intros Hn. by rewrite Set_delete_absent.
Qed.

Lemma delete_size_witness :
  let this := run [OpSet red VUndefined; OpSet blue (VNum 2); OpSet red (VNum 3)] in
  size (delete red this).2 + 1 = size this ∧
  size (delete (mk_key "crimson" ["r"]) this).2 = size this.
Proof.
  intros this. split.
  - apply (delete_size _ red "red" ["r"; "crimson"]); [reflexivity|].
    apply elem_of_cons. left. reflexivity.
  - apply (delete_size _ (mk_key "crimson" ["r"]) "crimson" ["r"]); [reflexivity|].
    intros Hin. repeat (apply elem_of_cons in Hin as [[=]|Hin]).
    by apply elem_of_nil in Hin.
Defined.

(** X11: [delete] followed by [set] under the same name moves the name to
    the end of the iteration order (where a [set] alone would have kept its
    place): the other primary names keep their order and the name comes
    last. *)
Theorem delete_then_set_moves_last (this : AliasMap) (key key' v : value)
    (n : string) (al al' : list string) :
  valid_key key n al →
  valid_key key' n al' →
  let after := (set key' v (delete key this).2).2 in
  _nameSet after = Set_delete n (_nameSet this) ++ [n] ∧
  last (_nameSet after) = Some n.
Proof.
  intros Hk Hk' after.
  assert (_nameSet after = Set_delete n (_nameSet this) ++ [n]) as ->.
  { unfold after. rewrite (delete_valid _ _ _ _ Hk). unfold snd at 2.
    rewrite (set_valid _ _ _ _ _ Hk'). unfold snd. simpl.
    unfold Set_add. by rewrite decide_False by apply Set_delete_fresh. }
  split; [done|]. apply last_snoc.
Qed.

Lemma delete_then_set_moves_last_witness :
  let this := run [OpSet red VUndefined; OpSet blue (VNum 2);
                   OpSet (mk_key "amber" []) (VNum 3)] in
  _nameSet (set red (VNum 4) (delete red this).2).2 = ["blue"; "amber"; "red"] ∧
  _nameSet (set red (VNum 4) this).2 = ["red"; "blue"; "amber"].
Proof.
  intros this. split; [|by vm_compute].
  apply (delete_then_set_moves_last this red red (VNum 4)
           "red" ["r"; "crimson"] ["r"; "crimson"]); reflexivity.
Defined.

(** ** Callers that keep aliases apart *)

(** X12: along a history in which no call listed another stored primary name
    among its aliases, [delete(k)] for a stored primary name [k.name]
    answers [true]. *)
Theorem delete_stored_name_answers_true (ops : list op) (key : value)
    (n : string) (al : list string) :
  aliases_apart new_AliasMap ops →
  valid_key key n al →
  n ∈ _nameSet (run ops) →
  (delete key (run ops)).1 = Returned true.
Proof.
  intros Hops Hk Hn. rewrite (delete_valid _ _ _ _ Hk). cbn [fst]. f_equal.
  apply Map_has_true. rewrite (primary_name_lookup ops n Hops Hn).
  by apply nameSet_entry.
Qed.

Lemma delete_stored_name_answers_true_witness :
  (delete (mk_key "red" [])
     (run [OpSet red VUndefined; OpSet blue (VNum 2);
           OpDelete (mk_key "rose" ["r"])])).1 = Returned true.
Proof.
  apply (delete_stored_name_answers_true _ (mk_key "red" []) "red" []).
  - apply (bool_decide_unpack _). vm_compute. exact I.
  - reflexivity.
  - apply elem_of_cons. left. reflexivity.
Defined.

(** X13: a [delete(k)] that lists among its aliases a stored primary name
    [p] other than [k.name] leaves [p] in the iteration order with nothing
    filed under it: [has(p)] is false, and [get(p)], the value [values()]
    and [forEach] hand out for [p], is [undefined]. *)
Theorem delete_alias_orphans_primary (this : AliasMap) (key : value)
    (n p : string) (al : list string) :
  valid_key key n al →
  p ∈ al → p ≠ n →
  p ∈ _nameSet this →
  let after := (delete key this).2 in
  p ∈ _nameSet after ∧
  has (VStr p) after = (Returned false, after) ∧
  get (VStr p) after = (Returned VUndefined, after) ∧
  Map_get (_map after) p = VUndefined.
Proof.
  intros Hk Hal Hne Hp. rewrite (delete_valid _ _ _ _ Hk). unfold snd.
  rewrite get_string, has_string.
  assert (_map (delete_state n al this) !! p = None) as Hl
    by (apply lookup_delete_state; by right).
  assert (Map_get (_map (delete_state n al this)) p = VUndefined) as Hg
    by (unfold Map_get; by rewrite Hl).
  split_and!.
  - simpl. by apply elem_of_Set_delete.
  - do 2 f_equal. by apply Map_has_false.
  - by rewrite Hg.
  - exact Hg.
Qed.

Lemma delete_alias_orphans_primary_witness :
  let this := run [OpSet (mk_key "a" []) (VNum 1); OpSet (mk_key "b" ["a"]) (VNum 2)] in
  let after := (delete (mk_key "b" ["a"]) this).2 in
  _nameSet after = ["a"] ∧
  drain (values_next after) 2 values = Some [VUndefined] ∧
  has (VStr "a") after = (Returned false, after).
Proof.
  intros this after.
  destruct (delete_alias_orphans_primary this (mk_key "b" ["a"]) "b" "a" ["a"])
    as (_ & Hhas & _).
  - reflexivity.
  - apply list_elem_of_singleton. reflexivity.
  - discriminate.
  - apply elem_of_cons. left. reflexivity.
  - split; [by vm_compute|]. split; [by vm_compute|exact Hhas].
Defined.

(** ** Iterators over a container that changes between pulls *)

Section live_iterators.

Implicit Types (this : AliasMap) (it : SetIterator) (names : list string).

Lemma pull_n_stays {A} (next : SetIterator → option A * SetIterator) names k it :
  (∀ it, (next it).2 = (SetIterator_next names it).2) →
  finished it = true → pull_n next k it = it.
Proof.
  intros Hnext Hf. induction k as [|k IH]; [done|].
  simpl. rewrite Hnext. unfold SetIterator_next. rewrite Hf. simpl. exact IH.
Qed.

Lemma pull_n_finished {A} (next : SetIterator → option A * SetIterator) names k it :
  (∀ it, (next it).2 = (SetIterator_next names it).2) →
  length names - cursor it < k → finished (pull_n next k it) = true.
Proof.
  intros Hnext. revert it. induction k as [|k IH]; intros it Hk; [lia|].
  simpl. rewrite Hnext. unfold SetIterator_next.
  destruct (finished it) eqn:Hf; simpl.
  - by rewrite (pull_n_stays next names k it).
  - destruct (names !! cursor it) as [x|] eqn:Hx; simpl.
    + apply lookup_lt_Some in Hx. apply IH. simpl. lia.
    + by rewrite (pull_n_stays next names k).
Qed.

Lemma keys_next_snd this it :
  (keys_next this it).2 = (SetIterator_next (_nameSet this) it).2.
Proof. reflexivity. Qed.

Lemma values_next_snd this it :
  (values_next this it).2 = (SetIterator_next (_nameSet this) it).2.
Proof. unfold values_next. by destruct (SetIterator_next _ it) as [[?|] ?]. Qed.

Lemma iterator_next_snd this it :
  (iterator_next this it).2 = (SetIterator_next (_nameSet this) it).2.
Proof. unfold iterator_next. by destruct (SetIterator_next _ it) as [[?|] ?]. Qed.

End live_iterators.

(** X14: the iterators read the container at each pull.  When the name an
    iterator is about to visit is one of the names of [k], a pull made after
    [set(k, v)] visits that name in its place and hands out the value that
    [set] has just filed. *)
Theorem pull_after_set_reads_new_value (this : AliasMap) (key v : value)
    (n s : string) (al : list string) (it : SetIterator) :
  valid_key key n al →
  finished it = false →
  _nameSet this !! cursor it = Some s →
  s = n ∨ s ∈ al →
  let after := (set key v this).2 in
  let it' := {| cursor := S (cursor it); finished := false |} in
  keys_next after it = (Some s, it') ∧
  values_next after it = (Some (stored_value key v), it') ∧
  iterator_next after it = (Some (s, stored_value key v), it').
Proof.
  intros Hk Hf Hs Hin after it'.
  assert (_nameSet after !! cursor it = Some s) as Hs'.
  { unfold after. rewrite (set_valid _ _ _ _ _ Hk). simpl.
    destruct (Set_add_prefix n (_nameSet this)) as [added ->].
    by apply lookup_app_l_Some. }
  assert (Map_get (_map after) s = stored_value key v) as Hg.
  { unfold after. rewrite (set_valid _ _ _ _ _ Hk). unfold snd.
    apply Map_get_Some. by apply lookup_set_state. }
  unfold keys_next, values_next, iterator_next, SetIterator_next.
  rewrite Hf, Hs', Hg. done.
Qed.

Lemma pull_after_set_reads_new_value_witness :
  let this := run [OpSet red (VNum 1); OpSet blue (VNum 2)] in
  let it := (values_next this values).2 in
  (values_next this it).1 = Some (VNum 2) ∧
  (values_next (set (mk_key "azure" ["blue"]) (VNum 9) this).2 it).1 = Some (VNum 9).
Proof.
  intros this it. split; [by vm_compute|].
  destruct (pull_after_set_reads_new_value this (mk_key "azure" ["blue"]) (VNum 9)
              "azure" "blue" ["blue"] it) as (_ & Hv & _).
  - reflexivity.
  - reflexivity.
  - reflexivity.
  - right. apply list_elem_of_singleton. reflexivity.
  - by rewrite Hv.
Defined.

(** X15: a name inserted while an iterator is under way is visited: for an
    iterator that has not reported [done], draining it after a [set] under
    a new primary name yields the names it had left and then the new
    name. *)
Theorem drain_after_set_visits_new_name (this : AliasMap) (key v : value)
    (n : string) (al : list string) (from fuel : nat) :
  valid_key key n al →
  n ∉ _nameSet this →
  from ≤ length (_nameSet this) →
  length (_nameSet this) - from + 1 < fuel →
  let after := (set key v this).2 in
  let it := {| cursor := from; finished := false |} in
  drain (keys_next after) fuel it = Some (drop from (_nameSet this) ++ [n]) ∧
  drain (values_next after) fuel it
    = Some ((Map_get (_map after) <$> drop from (_nameSet this)) ++ [stored_value key v]).
Proof.
  intros Hk Hn Hfrom Hfuel after it.
  assert (_nameSet after = _nameSet this ++ [n]) as Hns.
  { unfold after. rewrite (set_valid _ _ _ _ _ Hk). simpl.
    unfold Set_add. by rewrite decide_False. }
  assert (Map_get (_map after) n = stored_value key v) as Hg.
  { unfold after. rewrite (set_valid _ _ _ _ _ Hk). unfold snd.
    apply Map_get_Some. apply lookup_set_state. by left. }
  assert (drop from (_nameSet after) = drop from (_nameSet this) ++ [n]) as Hd.
  { rewrite Hns. rewrite drop_app_le by done. done. }
  assert (length (_nameSet after) - from < fuel) as Hfuel'.
  { rewrite Hns, length_app. simpl. lia. }
  split.
  - unfold it. rewrite (drain_names id (keys_next after) (_nameSet after)).
    + by rewrite list_fmap_id, Hd.
    + intros j. unfold keys_next. rewrite option_fmap_id.
      by destruct (SetIterator_next _ j).
    + done.
  - unfold it.
    rewrite (drain_names (Map_get (_map after)) (values_next after) (_nameSet after)).
    + by rewrite Hd, fmap_app, <- Hg.
    + intros j. unfold values_next. by destruct (SetIterator_next _ j) as [[?|] ?].
    + done.
Qed.

Lemma drain_after_set_visits_new_name_witness :
  let this := run [OpSet red (VNum 1); OpSet blue (VNum 2)] in
  let after := (set (mk_key "amber" []) (VNum 3) this).2 in
  drain (keys_next after) 4 (keys_next this keys).2 = Some ["blue"; "amber"].
Proof.
  intros this after.
  apply (drain_after_set_visits_new_name this (mk_key "amber" []) (VNum 3)
           "amber" [] 1 4).
  - reflexivity.
  - intros Hin. repeat (apply elem_of_cons in Hin as [[=]|Hin]).
    by apply elem_of_nil in Hin.
  - vm_compute. lia.
  - vm_compute. lia.
Defined.

(** X16: an iterator that has reported [done] stays done.  After more pulls
    than the container has primary names the iterator is finished, and every
    later pull answers [done], on the same container or on one that has
    been given new names since. *)
Theorem exhausted_iterator_stays_done (this this' : AliasMap) (k : nat) :
  size this < k →
  let itk := pull_n (keys_next this) k keys in
  let itv := pull_n (values_next this) k values in
  let iti := pull_n (iterator_next this) k iterator in
  keys_next this' itk = (None, itk) ∧
  values_next this' itv = (None, itv) ∧
  iterator_next this' iti = (None, iti).
Proof.
  intros Hk itk itv iti.
  assert (length (_nameSet this) - cursor Set_iterator < k) as Hk'
    by (unfold size, Set_size in Hk; simpl; lia).
  assert (finished itk = true) as Hfk
    by (apply (pull_n_finished _ (_nameSet this)); [apply keys_next_snd|exact Hk']).
  assert (finished itv = true) as Hfv
    by (apply (pull_n_finished _ (_nameSet this)); [apply values_next_snd|exact Hk']).
  assert (finished iti = true) as Hfi
    by (apply (pull_n_finished _ (_nameSet this)); [apply iterator_next_snd|exact Hk']).
  unfold keys_next, values_next, iterator_next, SetIterator_next.
  by rewrite Hfk, Hfv, Hfi.
Qed.

Lemma exhausted_iterator_stays_done_witness :
  let this := run [OpSet red (VNum 1); OpSet blue (VNum 2)] in
  let this' := (set (mk_key "amber" []) (VNum 3) this).2 in
  let itv := pull_n (values_next this) 3 values in
  values_next this' itv = (None, itv) ∧
  (values_next this' (pull_n (values_next this) 2 values)).1 = Some (VNum 3).
Proof.
  intros this this' itv. split; [|by vm_compute].
  apply (exhausted_iterator_stays_done this this' 3). vm_compute. lia.
Defined.

(** ** [forEach] and [size] along a history *)

(** X17: along a history in which no call listed another stored primary name
    among its aliases, [forEach] calls the callback once per primary name,
    in order, with the value stored for that entry and the index of the
    name; none of the values handed over is [undefined]. *)
Theorem forEach_hands_entry_values (ops : list op) (iteratorFn : value) :
  aliases_apart new_AliasMap ops →
  typeof iteratorFn = "function" →
  let this := run ops in
  ∃ calls,
    forEach iteratorFn this = (Returned calls, this) ∧
    length calls = size this ∧
    ∀ i name, _nameSet this !! i = Some name →
      ∃ v, entry_value ops name = Some v ∧ v ≠ VUndefined ∧ calls !! i = Some (v, i).
Proof.
  intros Hops Hf this. subst this.
  exists (imap (λ i name, (Map_get (_map (run ops)) name, i)) (_nameSet (run ops))).
  split_and!.
  - by apply forEach_function.
  - by rewrite length_imap.
  - intros i name Hi.
    assert (name ∈ _nameSet (run ops)) as Hin by (apply list_elem_of_lookup; eauto).
    pose proof (primary_name_lookup ops name Hops Hin) as Hl.
    destruct (proj1 (nameSet_entry ops name) Hin) as [v Hv].
    exists v. split; [done|]. rewrite Hv in Hl. split.
    + by apply (filed_value_defined ops name).
    + rewrite list_lookup_imap, Hi. simpl. by rewrite (Map_get_Some _ _ _ Hl).
Qed.

Lemma forEach_hands_entry_values_witness :
  let ops := [OpSet red VUndefined; OpSet blue (VNum 42); OpSet red (VNum 7)] in
  ∃ calls, forEach (VFun "f") (run ops) = (Returned calls, run ops) ∧
           length calls = 2.
Proof.
  intros ops.
  destruct (forEach_hands_entry_values ops (VFun "f")) as (calls & Hc & Hlen & _).
  - apply (bool_decide_unpack _). vm_compute. exact I.
  - reflexivity.
  - exists calls. split; [exact Hc|exact Hlen].
Defined.

Section only_sets.

Implicit Types (kvs : list (value * value)).

Lemma nameSet_of_sets kvs n :
  n ∈ _nameSet (run (uncurry OpSet <$> kvs))
  ↔ n ∈ omap (λ kv, fst <$> key_shape kv.1) kvs.
Proof.
  induction kvs as [|[key v] kvs IH] using rev_ind; [done|].
  rewrite fmap_app, omap_app. simpl. rewrite run_snoc, exec_set, elem_of_app, <- IH.
  destruct (key_shape key) as [[n0 al]|]; simpl.
  - rewrite elem_of_Set_add, list_elem_of_singleton. tauto.
  - split; [by left|]. by intros [?|?%elem_of_nil].
Qed.

End only_sets.

(** X18: after a run of [set] calls alone, starting from a new container,
    the primary names are the [name]s of the keys that passed the checks,
    and [size] is the number of distinct ones among them, whatever the
    aliases and however often a name was set. *)
Theorem size_counts_distinct_names (kvs : list (value * value)) :
  let this := run (uncurry OpSet <$> kvs) in
  let names := omap (λ kv, fst <$> key_shape kv.1) kvs in
  (∀ n, n ∈ _nameSet this ↔ n ∈ names) ∧
  size this = length (remove_dups names).
Proof.
  intros this names. split; [intros n; apply nameSet_of_sets|].
  unfold size, Set_size. apply Permutation_length.
  apply NoDup_Permutation; [apply NoDup_nameSet|apply NoDup_remove_dups|].
  intros n. rewrite elem_of_remove_dups. apply nameSet_of_sets.
Qed.
